(** * Message-stream reconciliation of [src/providers/Stream.tsx]

    The [StreamSession] component keeps one piece of React state,
    [messages], and changes it from exactly three places, each through a
    functional updater [setMessages(prev => next)]:

    - the token branch of [onLangChainEvent]  (lines 110-161),
    - the phase-end branch of [onLangChainEvent]  (lines 162-189),
    - the effect that watches [streamValue]  (lines 224-254).

    The updaters are pure functions of the previous array, so the state is
    threaded explicitly: every handler below maps the previous store to the
    next one.  React applies queued updaters one after the other, which is
    the single-writer discipline of the component. *)

From stdpp Require Import gmap strings list pretty.

Set Warnings "-register-all".

(** ** JavaScript values *)

(** Primitive values.  [PNum n] stands for an integer-valued number below
    1e21 in magnitude, the range in which JavaScript renders a number as
    its digit string; larger numbers (rendered in exponent form), NaN, the
    infinities and fractions are outside the model, and no theorem below
    reads the rendering of a number. *)
Inductive prim : Type :=
  | PUndefined
  | PNull
  | PBool (b : bool)
  | PNum (n : Z)
  | PStr (s : string).

(** Arrays and plain data objects; an object is the list of its own
    enumerable properties.  The objects meant are records such as content
    blocks, whose keys do not shadow [toString] or [valueOf]: for an object
    that does, string conversion throws in JavaScript, which is outside the
    model. *)
Inductive value : Type :=
  | VPrim (p : prim)
  | VArr (elems : list value)
  | VObj (props : list (string * value)).

Abbreviation VStr s := (VPrim (PStr s)).
Abbreviation VUndefined := (VPrim PUndefined).

Global Instance prim_eq_dec : EqDecision prim.
Proof. solve_decision. Defined.

Definition prim_encode (p : prim) : unit + (unit + (bool + (Z + string))) :=
  match p with
  | PUndefined => inl ()
  | PNull => inr (inl ())
  | PBool b => inr (inr (inl b))
  | PNum n => inr (inr (inr (inl n)))
  | PStr s => inr (inr (inr (inr s)))
  end.

Definition prim_decode (x : unit + (unit + (bool + (Z + string)))) : prim :=
  match x with
  | inl _ => PUndefined
  | inr (inl _) => PNull
  | inr (inr (inl b)) => PBool b
  | inr (inr (inr (inl n))) => PNum n
  | inr (inr (inr (inr s))) => PStr s
  end.

Global Instance prim_countable : Countable prim.
Proof. apply (inj_countable' prim_encode prim_decode). by intros []. Defined.

(** ToBoolean. *)
Definition truthy_prim (p : prim) : bool :=
  match p with
  | PUndefined | PNull => false
  | PBool b => b
  | PNum n => negb (n =? 0)%Z
  | PStr s => negb (String.eqb s "")
  end.

Definition truthy (v : value) : bool :=
  match v with
  | VPrim p => truthy_prim p
  | VArr _ | VObj _ => true
  end.

(** [a || b]. *)
Definition js_or (a b : value) : value := if truthy a then a else b.

(** ToString on primitives. *)
Definition prim_to_string (p : prim) : string :=
  match p with
  | PUndefined => "undefined"
  | PNull => "null"
  | PBool true => "true"
  | PBool false => "false"
  | PNum n => pretty n
  | PStr s => s
  end.

(** ToString after ToPrimitive, on the values described above: an array
    is the comma-joined rendering of its elements, where [undefined] and
    [null] render as nothing ([Array.prototype.join]); a plain object is
    ["[object Object]"]. *)
Fixpoint to_string (v : value) : string :=
  match v with
  | VPrim p => prim_to_string p
  | VArr elems =>
      String.concat ","
        (List.map (λ e, match e with
                        | VPrim PUndefined | VPrim PNull => ""
                        | _ => to_string e
                        end) elems)
  | VObj _ => "[object Object]"
  end.

(** [a + s] for a string [s]: with a string operand, [+] concatenates the
    string renderings of both sides. *)
Definition js_add_string (a : value) (s : string) : value :=
  VStr (to_string a +:+ s).

(** [a === b] and [Set.prototype.has] on primitives: [PNum] has no NaN, so
    both are equality of [prim], decided by [prim_eq_dec]. *)

(** ** Messages and events *)

(** A message object: the two properties the component reads, and the
    remaining own properties, which it only copies.  [id] is a primitive:
    the SDK types it [string | undefined]. *)
Module Message.
Record t : Type := mk {
  id : prim;
  content : value;
  rest : list (string * value)
}.

(** [{...m, content: c}] *)
Definition with_content (m : t) (c : value) : t :=
  {| id := id m; content := c; rest := rest m |}.

(** Everything of a message but its content. *)
Definition shell (m : t) : prim * list (string * value) := (id m, rest m).
End Message.

(** The [data] payload, reduced to the two paths the handler follows:
    [data?.chunk] when it is an object, and [data?.output?.messages] when
    it is an array. *)
Record EventData : Type := {
  chunk : option Message.t;
  output_messages : option (list Message.t)
}.

Record LangChainEvent : Type := {
  event : string;
  data : EventData
}.

(** The store: [const [messages, setMessages] = useState<any[]>([])]. *)
Definition initialMessages : list Message.t := [].

(** ** The token branch  (lines 110-161) *)

(** The updater of lines 123-159.  [list_find] is [findIndex] together with
    the element it found ([None] for the index -1); [<[i:=x]>] on the copy
    is [updatedMessages[i] = x], always in range here. *)
Definition appendChunk (chunk : Message.t) (prevMessages : list Message.t)
  : list Message.t :=
  let chunkId := Message.id chunk in
  let chunkContent := Message.content chunk in
  match list_find (λ msg, Message.id msg = chunkId) prevMessages with
  | Some (existingMessageIndex, existingMessage) =>
      match chunkContent with
      | VPrim (PStr fragment) =>
          <[existingMessageIndex :=
              Message.with_content existingMessage
                (js_add_string
                   (js_or (Message.content existingMessage) (VStr ""))
                   fragment)]> prevMessages
      | VArr blocks =>
          <[existingMessageIndex :=
              Message.with_content existingMessage
                (match Message.content existingMessage with
                 | VArr existing => VArr (existing ++ blocks)
                 | other => VArr (other :: blocks)
                 end)]> prevMessages
      | _ => prevMessages
      end
  | None =>
      (* {id: chunkId, content: chunkContent, ...chunk}: the spread writes
         the chunk's own id and content over the two it was given *)
      prevMessages ++
        [ {| Message.id := chunkId;
             Message.content := chunkContent;
             Message.rest := Message.rest chunk |} ]
  end.

(** Lines 118-122: the content is worth processing. *)
Definition validContent (chunkContent : value) : bool :=
  match chunkContent with
  | VPrim PUndefined | VPrim PNull => false
  | VPrim (PStr s) => negb (String.eqb s "")
  | _ => true
  end.

Definition isStreamEvent (name : string) : bool :=
  String.eqb name "on_chain_stream" || String.eqb name "on_chat_model_stream".

Definition isEndEvent (name : string) : bool :=
  String.eqb name "on_chain_end" || String.eqb name "on_tool_end"
  || String.eqb name "on_chat_model_end".

(** ** The phase-end branch  (lines 162-189) *)

(** The updater of lines 175-188. *)
Definition mergeOutputMessages (newMessages prevMessages : list Message.t)
  : list Message.t :=
  let existingIds : gset prim := list_to_set (Message.id <$> prevMessages) in
  let uniqueNewMessages :=
    filter
      (λ msg : Message.t,
         truthy_prim (Message.id msg)
         && negb (bool_decide (Message.id msg ∈ existingIds)))
      newMessages in
  if bool_decide (0 < length uniqueNewMessages)%nat
  then prevMessages ++ uniqueNewMessages
  else prevMessages.

(** [onLangChainEvent]  (lines 107-197). *)
Definition onLangChainEvent (ev : LangChainEvent) (prevMessages : list Message.t)
  : list Message.t :=
  if isStreamEvent (event ev) then
    match chunk (data ev) with
    | Some c =>
        if truthy_prim (Message.id c) && validContent (Message.content c)
        then appendChunk c prevMessages
        else prevMessages
    | None => prevMessages
    end
  else if isEndEvent (event ev) then
    match output_messages (data ev) with
    | Some newMessages => mergeOutputMessages newMessages prevMessages
    | None => prevMessages
    end
  else prevMessages.

(** ** The [streamValue] effect  (lines 224-254) *)

(** The updater of lines 231-250. *)
Definition mergeStreamMessages (streamMessages prevMessages : list Message.t)
  : list Message.t :=
  let existingIds : gset prim := list_to_set (Message.id <$> prevMessages) in
  let newMessagesFromStream :=
    filter
      (λ msg : Message.t,
         truthy_prim (Message.id msg)
         && negb (bool_decide (Message.id msg ∈ existingIds)))
      streamMessages in
  if bool_decide (0 < length newMessagesFromStream)%nat
  then prevMessages ++ newMessagesFromStream
  else prevMessages.

(** The effect body: [streamValue.messages] is [None] when it is missing
    or not an array. *)
Definition onStreamValue (streamMessages : option (list Message.t))
    (prevMessages : list Message.t) : list Message.t :=
  match streamMessages with
  | Some l => mergeStreamMessages l prevMessages
  | None => prevMessages
  end.

(** ** Sessions *)

(** What the component reacts to during a session: the four callbacks it
    hands to [useStream], and a change of [streamValue].  [onCustomEvent],
    [onUpdateEvent] and [onThreadId] never call [setMessages]. *)
Inductive SessionEvent : Type :=
  | LangChain (ev : LangChainEvent)
  | StreamValue (streamMessages : option (list Message.t))
  | CustomEvent
  | UpdateEvent
  | ThreadId (threadId : string).

Definition dispatch (e : SessionEvent) (store : list Message.t) : list Message.t :=
  match e with
  | LangChain ev => onLangChainEvent ev store
  | StreamValue ms => onStreamValue ms store
  | CustomEvent | UpdateEvent | ThreadId _ => store
  end.

Definition run (history : list SessionEvent) (store : list Message.t)
  : list Message.t :=
  foldl (λ s e, dispatch e s) store history.

(** What the component finds when it looks a message up by id: the first
    entry carrying it. *)
Definition stored (X : prim) (store : list Message.t) : option Message.t :=
  snd <$> list_find (λ msg, Message.id msg = X) store.

(** ** The merge policy as the specification words it *)

(** "Compute the set of ids already present in the Conversation Store;
    filter the incoming list to only ids not yet present; append the
    filtered, order-preserved list to the end of the store." *)
Definition specMerge (incoming store : list Message.t) : list Message.t :=
  store ++ filter (λ msg, Message.id msg ∉ Message.id <$> store) incoming.

(** The same policy with the guard the code puts in front of it. *)
Definition guardedMerge (incoming store : list Message.t) : list Message.t :=
  store ++
  filter (λ msg, truthy_prim (Message.id msg) = true
                 ∧ Message.id msg ∉ Message.id <$> store) incoming.

(** ** Reading the store *)

(** [Array.isArray]. *)
Definition isArray (v : value) : bool :=
  match v with VArr _ => true | _ => false end.

(** What the token updater writes in place of the entry it found
    (lines 133-145), as a function of the fragment and that entry. *)
Definition grow (chunkContent : value) (existingMessage : Message.t) : Message.t :=
  match chunkContent with
  | VPrim (PStr fragment) =>
      Message.with_content existingMessage
        (js_add_string (js_or (Message.content existingMessage) (VStr "")) fragment)
  | VArr blocks =>
      Message.with_content existingMessage
        (match Message.content existingMessage with
         | VArr existing => VArr (existing ++ blocks)
         | other => VArr (other :: blocks)
         end)
  | _ => existingMessage
  end.

(** The session events that reach the token updater with id [X]. *)
Definition isTokenFor (X : prim) (e : SessionEvent) : bool :=
  match e with
  | LangChain ev =>
      isStreamEvent (event ev)
      && match chunk (data ev) with
         | Some c => bool_decide (Message.id c = X)
         | None => false
         end
  | _ => false
  end.

(** What one session event does to the entry stored under [X]. *)
Definition react (X : prim) (e : SessionEvent) (m : Message.t) : Message.t :=
  match e with
  | LangChain ev =>
      if isStreamEvent (event ev) then
        match chunk (data ev) with
        | Some c =>
            if bool_decide (Message.id c = X)
               && (truthy_prim (Message.id c) && validContent (Message.content c))
            then grow (Message.content c) m
            else m
        | None => m
        end
      else m
  | _ => m
  end.

(** Events as the scenarios of the specification write them. *)
Definition tokenEvent (name : string) (c : Message.t) : SessionEvent :=
  LangChain {| event := name;
               data := {| chunk := Some c; output_messages := None |} |}.

Definition endEvent (name : string) (msgs : list Message.t) : SessionEvent :=
  LangChain {| event := name;
               data := {| chunk := None; output_messages := Some msgs |} |}.

(** A message with a string id, string content and nothing else. *)
Definition textMessage (i c : string) : Message.t :=
  {| Message.id := PStr i; Message.content := VStr c; Message.rest := [] |}.

(** The store invariant behind the [msg.id &&] guards. *)
Definition allIdsTruthy (store : list Message.t) : Prop :=
  Forall (λ m, truthy_prim (Message.id m) = true) store.

(** The session events routed to the token branch. *)
Definition isTokenEvent (e : SessionEvent) : bool :=
  match e with
  | LangChain ev => isStreamEvent (event ev)
  | _ => false
  end.

(** The coercion the specification describes for a string fragment that
    meets non-string content: "a single-element sequence boxing the
    previous value, then appending". *)
Definition specBoxAppend (previous : value) (fragment : string) : value :=
  VArr ([previous] ++ [VStr fragment]).

(** ** Observations on a store and on a history *)

(** The ids a store holds, as a set. *)
Definition idSet (store : list Message.t) : gset prim :=
  list_to_set (Message.id <$> store).

(** The ids of a message list that pass the [msg.id &&] half of the
    merge filters. *)
Definition truthyIds (msgs : list Message.t) : list prim :=
  filter (λ i, truthy_prim i = true) (Message.id <$> msgs).

(** The part of an incoming list that a merge appends to [store]. *)
Definition freshMessages (incoming store : list Message.t) : list Message.t :=
  filter (λ msg, truthy_prim (Message.id msg) = true
                 ∧ Message.id msg ∉ Message.id <$> store) incoming.

(** The message list a session event hands to one of the two mergers, if
    it reaches one. *)
Definition mergedList (e : SessionEvent) : option (list Message.t) :=
  match e with
  | LangChain ev =>
      if isStreamEvent (event ev) then None
      else if isEndEvent (event ev) then output_messages (data ev)
      else None
  | StreamValue ms => ms
  | _ => None
  end.

(** The chunk a session event hands to the token updater, if it reaches
    it (lines 110-122). *)
Definition processedChunk (e : SessionEvent) : option Message.t :=
  match e with
  | LangChain ev =>
      if isStreamEvent (event ev) then
        match chunk (data ev) with
        | Some c =>
            if truthy_prim (Message.id c) && validContent (Message.content c)
            then Some c else None
        | None => None
        end
      else None
  | _ => None
  end.

(** The ids an event brings into the store, whatever the store holds. *)
Definition introduces (e : SessionEvent) : gset prim :=
  match processedChunk e, mergedList e with
  | Some c, _ => {[ Message.id c ]}
  | None, Some msgs => list_to_set (truthyIds msgs)
  | None, None => ∅
  end.

(** How many entries an event can add at most. *)
Definition payloadSize (e : SessionEvent) : nat :=
  match processedChunk e, mergedList e with
  | Some _, _ => 1
  | None, Some msgs => length msgs
  | None, None => 0
  end.

(** The content fragments that the token events of a history carry for
    the id [X], in order. *)
Definition fragmentOf (X : prim) (e : SessionEvent) : option value :=
  match processedChunk e with
  | Some c => if bool_decide (Message.id c = X) then Some (Message.content c)
              else None
  | None => None
  end.

Definition fragmentsFor (X : prim) (history : list SessionEvent) : list value :=
  omap (fragmentOf X) history.

Definition textOf (v : value) : string :=
  match v with VPrim (PStr s) => s | _ => "" end.

Definition blocksOf (v : value) : list value :=
  match v with VArr l => l | _ => [] end.

Definition isText (v : value) : bool :=
  match v with VPrim (PStr _) => true | _ => false end.

(** The merged list of an event, if any, names no truthy id twice. *)
Definition payloadDistinct (e : SessionEvent) : Prop :=
  match mergedList e with
  | Some msgs => NoDup (truthyIds msgs)
  | None => True
  end.

(** String fragments, and block fragments, put end to end. *)
Definition joinTexts (vs : list value) : string :=
  foldr (λ v acc, textOf v +:+ acc) "" vs.

Definition joinBlocks (vs : list value) : list value :=
  concat (blocksOf <$> vs).

(** ** The health probe and the provider  (lines 50-68, 280-422) *)

(** What [fetch] comes back with: a response and its [ok] flag, or a
    rejection. *)
Inductive FetchResult : Type :=
  | Response (ok : bool)
  | FetchError.

(** The second argument of [fetch] (lines 55-61), as the headers it
    carries: [apiKey && {headers: ...}] spreads nothing for [null] and for
    the empty string. *)
Definition probeInit (apiKey : option string) : option (list (string * string)) :=
  match apiKey with
  | Some k => if String.eqb k "" then None else Some [("X-Api-Key", k)]
  | None => None
  end.

(** [checkGraphStatus]  (lines 50-68), over the outcome of the request. *)
Definition checkGraphStatus
    (fetch : string → option (list (string * string)) → FetchResult)
    (apiUrl : string) (apiKey : option string) : bool :=
  match fetch (apiUrl +:+ "/info") (probeInit apiKey) with
  | Response ok => ok
  | FetchError => false
  end.

(** [a || b] for a string and a string that may be [undefined]. *)
Definition string_or (a : string) (b : option string) : option string :=
  if String.eqb a "" then b else Some a.

(** [a || b] for two strings. *)
Definition string_or_else (a b : string) : string :=
  if String.eqb a "" then b else a.

(** [!a] for a string that may be [undefined]. *)
Definition string_not (a : option string) : bool :=
  match a with
  | Some s => String.eqb s ""
  | None => true
  end.

Definition DEFAULT_API_URL : string := "http://localhost:2024".
Definition DEFAULT_ASSISTANT_ID : string := "agent".

(** What [StreamProvider] returns: the form with the default values of
    its three inputs, or the session with its three props. *)
Inductive Rendered : Type :=
  | Form (apiUrlField assistantIdField apiKeyField : string)
  | Session (apiKey apiUrl assistantId : string).

(** [StreamProvider]  (lines 280-422), over the values its hooks return:
    the two environment variables, the two query states and the key
    state. *)
Definition StreamProvider (envApiUrl envAssistantId : option string)
    (apiUrl assistantId apiKey : string) : Rendered :=
  let finalApiUrl := string_or apiUrl envApiUrl in
  let finalAssistantId := string_or assistantId envAssistantId in
  if string_not finalApiUrl || string_not finalAssistantId then
    Form (string_or_else apiUrl DEFAULT_API_URL)
         (string_or_else assistantId DEFAULT_ASSISTANT_ID)
         apiKey
  else Session apiKey apiUrl assistantId.

(** [a || ""] for a string that may be [null] or [undefined]: the initial
    key state [getApiKey() || ""] (lines 297-300) and the default of a
    query state [env || ""] (lines 289-294). *)
Definition string_or_empty (a : option string) : string :=
  match a with
  | Some s => if String.eqb s "" then "" else s
  | None => ""
  end.

(** * Properties *)

(** ** Both mergers are [guardedMerge] *)

Section merge_normal_form.
Implicit Types (store incoming : list Message.t) (msg : Message.t).

Lemma fresh_iff store msg :
  truthy_prim (Message.id msg)
  && negb (bool_decide
             (Message.id msg ∈ (list_to_set (Message.id <$> store) : gset prim)))
  ↔ truthy_prim (Message.id msg) = true ∧ Message.id msg ∉ Message.id <$> store.
Proof.
  rewrite andb_True, negb_True, bool_decide_spec, elem_of_list_to_set.
  by rewrite Is_true_true.
Qed.

Lemma length_guard_drop store (fresh : list Message.t) :
  (if bool_decide (0 < length fresh)%nat then store ++ fresh else store)
  = store ++ fresh.
Proof.
  case_bool_decide as Hlen; [done |].
  destruct fresh; [by rewrite app_nil_r | simpl in Hlen; lia].
Qed.

Lemma mergeOutputMessages_guarded incoming store :
  mergeOutputMessages incoming store = guardedMerge incoming store.
Proof.
  unfold mergeOutputMessages, guardedMerge. rewrite length_guard_drop.
  f_equal. apply list_filter_iff. intros msg. apply fresh_iff.
Qed.

Lemma mergeStreamMessages_guarded incoming store :
  mergeStreamMessages incoming store = guardedMerge incoming store.
Proof.
  unfold mergeStreamMessages, guardedMerge. rewrite length_guard_drop.
  f_equal. apply list_filter_iff. intros msg. apply fresh_iff.
Qed.

(** Every incoming message with a truthy id has its id in the merged
    store: it was there already, or it has just been appended. *)
Lemma guardedMerge_covers incoming store msg :
  msg ∈ incoming → truthy_prim (Message.id msg) = true →
  Message.id msg ∈ Message.id <$> guardedMerge incoming store.
Proof.
  intros Hin Hid. unfold guardedMerge. rewrite fmap_app, elem_of_app.
  destruct (decide (Message.id msg ∈ Message.id <$> store)) as [|Hnew];
    [by left | right].
  apply list_elem_of_fmap. exists msg. split; [done |].
  by apply list_elem_of_filter.
Qed.

(** Nothing passes the filter once every truthy id is known. *)
Lemma filter_all_known incoming store :
  (∀ msg, msg ∈ incoming → truthy_prim (Message.id msg) = true →
          Message.id msg ∈ Message.id <$> store) →
  guardedMerge incoming store = store.
Proof.
  unfold guardedMerge. intros Hknown.
  induction incoming as [|msg incoming IH]; [by rewrite app_nil_r |].
  rewrite filter_cons_False.
  - apply IH. intros x Hx. apply Hknown. by right.
  - intros [Hid Hnew]. apply Hnew, Hknown; [by left | done].
Qed.

Lemma guardedMerge_idem incoming store :
  guardedMerge incoming (guardedMerge incoming store)
  = guardedMerge incoming store.
Proof.
  apply filter_all_known. intros msg Hin Hid. by apply guardedMerge_covers.
Qed.
End merge_normal_form.

(** ** The token updater, entry by entry *)

Section token_branch.
Implicit Types (store : list Message.t) (m c : Message.t) (X : prim).

Lemma isEndEvent_not_stream name :
  isEndEvent name = true → isStreamEvent name = false.
Proof.
  unfold isEndEvent. rewrite !orb_true_iff, !String.eqb_eq.
  by intros [[-> | ->] | ->].
Qed.

Lemma isStreamEvent_names name :
  isStreamEvent name = true →
  name = "on_chain_stream" ∨ name = "on_chat_model_stream".
Proof. unfold isStreamEvent. by rewrite orb_true_iff, !String.eqb_eq. Qed.

Lemma isEndEvent_names name :
  isEndEvent name = true →
  name = "on_chain_end" ∨ name = "on_tool_end" ∨ name = "on_chat_model_end".
Proof.
  unfold isEndEvent. rewrite !orb_true_iff, !String.eqb_eq. tauto.
Qed.

Lemma id_grow v m : Message.id (grow v m) = Message.id m.
Proof. by destruct v as [[]| |]. Qed.

Lemma rest_grow v m : Message.rest (grow v m) = Message.rest m.
Proof. by destruct v as [[]| |]. Qed.

Lemma stored_find X store m :
  stored X store = Some m ↔
  ∃ i, list_find (λ msg, Message.id msg = X) store = Some (i, m).
Proof.
  unfold stored. rewrite fmap_Some. split.
  - intros [[i m'] [Hf ->]]. by exists i.
  - intros [i Hf]. by exists (i, m).
Qed.

Lemma stored_None X store :
  stored X store = None ↔ X ∉ Message.id <$> store.
Proof.
  unfold stored. rewrite fmap_None, list_find_None, Forall_forall.
  rewrite list_elem_of_fmap. split.
  - intros Hno (m & -> & Hm). by apply (Hno m).
  - intros Hno m Hm Hid. apply Hno. by exists m.
Qed.

Lemma appendChunk_new c store :
  stored (Message.id c) store = None → appendChunk c store = store ++ [c].
Proof.
  unfold stored, appendChunk. rewrite fmap_None. intros ->. by destruct c.
Qed.

Lemma appendChunk_found c store i m :
  list_find (λ msg, Message.id msg = Message.id c) store = Some (i, m) →
  appendChunk c store = <[i := grow (Message.content c) m]> store.
Proof.
  intros Hf. unfold appendChunk. rewrite Hf.
  apply list_find_Some in Hf as (Hi & _ & _).
  unfold grow. destruct (Message.content c) as [[]| |];
    auto using eq_sym, list_insert_id.
Qed.

Lemma find_insert_same X store i m m' :
  list_find (λ msg, Message.id msg = X) store = Some (i, m) →
  Message.id m' = X →
  list_find (λ msg, Message.id msg = X) (<[i:=m']> store) = Some (i, m').
Proof.
  intros (Hi & _ & Hleast)%list_find_Some Hid.
  apply list_find_insert_Some. right; left.
  split_and!; eauto using lookup_lt_Some.
Qed.

Lemma find_insert_other (P : Message.t → Prop) `{!∀ x, Decision (P x)}
    store i m m' :
  store !! i = Some m → ¬ P m → ¬ P m' →
  list_find P (<[i:=m']> store) = list_find P store.
Proof.
  revert i. induction store as [|x store IH]; intros [|i] Hi Hm Hm';
    simplify_eq/=; repeat case_decide; try done.
  by rewrite (IH i).
Qed.

Lemma stored_app_l X store more m :
  stored X store = Some m → stored X (store ++ more) = Some m.
Proof.
  rewrite !stored_find. intros [i Hf]. exists i. by apply list_find_app_l.
Qed.

Lemma stored_guardedMerge X incoming store m :
  stored X store = Some m → stored X (guardedMerge incoming store) = Some m.
Proof. intros HX. unfold guardedMerge. by apply stored_app_l. Qed.

Lemma stored_appendChunk X c store m :
  stored X store = Some m →
  stored X (appendChunk c store)
  = Some (if bool_decide (Message.id c = X) then grow (Message.content c) m
          else m).
Proof.
  intros HX. case_bool_decide as Hc.
  - subst X. apply stored_find in HX as [i Hf].
    rewrite (appendChunk_found _ _ _ _ Hf). apply stored_find. exists i.
    apply (find_insert_same _ _ _ m); [done |].
    rewrite id_grow. by apply list_find_Some in Hf as (_ & ? & _).
  - destruct (list_find (λ msg, Message.id msg = Message.id c) store)
      as [[j m0]|] eqn:Hf.
    + rewrite (appendChunk_found _ _ _ _ Hf).
      apply list_find_Some in Hf as (Hj & Hid & _).
      unfold stored. rewrite (find_insert_other _ _ _ m0); [done.. | |].
      * congruence.
      * rewrite id_grow. congruence.
    + rewrite appendChunk_new by (unfold stored; by rewrite Hf).
      by apply stored_app_l.
Qed.

(** One event moves the entry under [X] by [react], whatever else the
    store holds. *)
Lemma stored_dispatch X e store m :
  stored X store = Some m → stored X (dispatch e store) = Some (react X e m).
Proof.
  intros HX. destruct e as [ev | [l|] | | |]; simpl; [| |done..].
  - unfold onLangChainEvent.
    destruct (isStreamEvent (event ev)) eqn:Hs.
    + destruct (chunk (data ev)) as [c|]; [|done].
      destruct (truthy_prim (Message.id c) && validContent (Message.content c));
        [|by rewrite andb_false_r].
      rewrite andb_true_r. by apply stored_appendChunk.
    + destruct (isEndEvent (event ev)); [|done].
      destruct (output_messages (data ev)) as [l|]; [|done].
      rewrite mergeOutputMessages_guarded. by apply stored_guardedMerge.
  - rewrite mergeStreamMessages_guarded. by apply stored_guardedMerge.
Qed.

Lemma stored_run X history store m :
  stored X store = Some m →
  stored X (run history store) = Some (foldl (λ m e, react X e m) m history).
Proof.
  revert store m. induction history as [|e history IH]; intros store m HX;
    [done |].
  simpl. apply IH. by apply stored_dispatch.
Qed.

Lemma react_not_token X e m : isTokenFor X e = false → react X e m = m.
Proof.
  destruct e as [ev| | | |]; [|done..]. simpl.
  destruct (isStreamEvent (event ev)); [|done].
  destruct (chunk (data ev)) as [c|]; [|done]. simpl.
  by intros ->.
Qed.

Lemma foldl_react_tokens X history m :
  foldl (λ m e, react X e m) m (filter (λ e, isTokenFor X e) history)
  = foldl (λ m e, react X e m) m history.
Proof.
  revert m. induction history as [|e history IH]; intros m; [done |].
  destruct (isTokenFor X e) eqn:Ht.
  - rewrite filter_cons_True by (by apply Is_true_true). simpl. apply IH.
  - rewrite filter_cons_False by (by apply Is_true_false). simpl.
    by rewrite (react_not_token _ _ _ Ht).
Qed.

Lemma stored_singleton m : stored (Message.id m) [m] = Some m.
Proof. unfold stored. simpl. by rewrite decide_True. Qed.
End token_branch.

(** ** Growth of the store *)

Section growth.
Implicit Types (store : list Message.t) (m c : Message.t) (e : SessionEvent).

Lemma shell_grow v m : Message.shell (grow v m) = Message.shell m.
Proof. unfold Message.shell. by rewrite id_grow, rest_grow. Qed.

Lemma appendChunk_shells c store :
  Message.shell <$> store `prefix_of` Message.shell <$> appendChunk c store.
Proof.
  destruct (list_find (λ msg, Message.id msg = Message.id c) store)
    as [[i m]|] eqn:Hf.
  - rewrite (appendChunk_found _ _ _ _ Hf), list_fmap_insert, shell_grow.
    apply list_find_Some in Hf as (Hi & _).
    rewrite list_insert_id; [done |]. by rewrite list_lookup_fmap, Hi.
  - rewrite appendChunk_new by (unfold stored; by rewrite Hf).
    rewrite fmap_app. by apply prefix_app_r.
Qed.

Lemma guardedMerge_prefix incoming store :
  store `prefix_of` guardedMerge incoming store.
Proof. unfold guardedMerge. by apply prefix_app_r. Qed.

(** Events other than token events extend the store and touch nothing. *)
Lemma dispatch_prefix e store :
  isTokenEvent e = false →
  store `prefix_of` dispatch e store.
Proof.
  destruct e as [ev | [l|] | | |]; simpl; [| |done..].
  - intros Hs. unfold onLangChainEvent. rewrite Hs.
    destruct (isEndEvent (event ev)); [|done].
    destruct (output_messages (data ev)); [|done].
    rewrite mergeOutputMessages_guarded. apply guardedMerge_prefix.
  - intros _. rewrite mergeStreamMessages_guarded. apply guardedMerge_prefix.
Qed.

Lemma dispatch_shells e store :
  Message.shell <$> store `prefix_of` Message.shell <$> dispatch e store.
Proof.
  destruct (isTokenEvent e) eqn:Hs.
  - destruct e as [ev| | | |]; [|done..]. simpl in *. unfold onLangChainEvent.
    rewrite Hs.
    destruct (chunk (data ev)) as [c|]; [|done].
    destruct (_ && _); [apply appendChunk_shells | done].
  - destruct (dispatch_prefix e store Hs) as [k ->].
    rewrite fmap_app. by apply prefix_app_r.
Qed.

Lemma run_shells history store :
  Message.shell <$> store `prefix_of` Message.shell <$> run history store.
Proof.
  revert store. induction history as [|e history IH]; intros store; [done |].
  simpl. etrans; [apply (dispatch_shells e) | apply IH].
Qed.

Lemma allIdsTruthy_guardedMerge incoming store :
  allIdsTruthy store → allIdsTruthy (guardedMerge incoming store).
Proof.
  intros Hs. apply Forall_app. split; [done |].
  apply Forall_forall. by intros m [[Hid _] _]%list_elem_of_filter.
Qed.

Lemma allIdsTruthy_appendChunk c store :
  truthy_prim (Message.id c) = true →
  allIdsTruthy store → allIdsTruthy (appendChunk c store).
Proof.
  intros Hc Hs.
  destruct (list_find (λ msg, Message.id msg = Message.id c) store)
    as [[i m]|] eqn:Hf.
  - rewrite (appendChunk_found _ _ _ _ Hf). apply Forall_insert; [done |].
    rewrite id_grow. apply list_find_Some in Hf as (_ & -> & _). done.
  - rewrite appendChunk_new by (unfold stored; by rewrite Hf).
    apply Forall_app. split; [done | by constructor].
Qed.

Lemma allIdsTruthy_dispatch e store :
  allIdsTruthy store → allIdsTruthy (dispatch e store).
Proof.
  intros Hs. destruct e as [ev | [l|] | | |]; simpl; [| |done..].
  - unfold onLangChainEvent. destruct (isStreamEvent (event ev)).
    + destruct (chunk (data ev)) as [c|]; [|done].
      destruct (truthy_prim (Message.id c)) eqn:Hc; [|done]. simpl.
      destruct (validContent _); [|done].
      by apply allIdsTruthy_appendChunk.
    + destruct (isEndEvent (event ev)); [|done].
      destruct (output_messages (data ev)); [|done].
      rewrite mergeOutputMessages_guarded. by apply allIdsTruthy_guardedMerge.
  - rewrite mergeStreamMessages_guarded. by apply allIdsTruthy_guardedMerge.
Qed.

Lemma allIdsTruthy_run history store :
  allIdsTruthy store → allIdsTruthy (run history store).
Proof.
  revert store. induction history as [|e history IH]; intros store Hs;
    [done |].
  simpl. by apply IH, allIdsTruthy_dispatch.
Qed.

(** What a merge appends: a sub-list of the incoming list, every member
    with a truthy id. *)
Lemma guardedMerge_added incoming store :
  ∃ added, guardedMerge incoming store = store ++ added
           ∧ added `sublist_of` incoming
           ∧ allIdsTruthy added.
Proof.
  eexists. split; [reflexivity |]. split; [apply sublist_filter |].
  apply Forall_forall. by intros m [[Hid _] _]%list_elem_of_filter.
Qed.
End growth.

(** ** The handler, branch by branch *)

Section handler.
Implicit Types (store : list Message.t) (m c : Message.t).

Lemma onLangChainEvent_token ev c store :
  isStreamEvent (event ev) = true → chunk (data ev) = Some c →
  onLangChainEvent ev store
  = if truthy_prim (Message.id c) && validContent (Message.content c)
    then appendChunk c store else store.
Proof. intros Hs Hc. unfold onLangChainEvent. by rewrite Hs, Hc. Qed.

Lemma onLangChainEvent_end ev incoming store :
  isEndEvent (event ev) = true → output_messages (data ev) = Some incoming →
  onLangChainEvent ev store = mergeOutputMessages incoming store.
Proof.
  intros He Ho. unfold onLangChainEvent.
  by rewrite (isEndEvent_not_stream _ He), He, Ho.
Qed.

Lemma dispatch_tokenEvent name c store :
  isStreamEvent name = true →
  dispatch (tokenEvent name c) store
  = if truthy_prim (Message.id c) && validContent (Message.content c)
    then appendChunk c store else store.
Proof. intros Hs. by apply onLangChainEvent_token. Qed.

Lemma string_app_empty_r (t : string) : t +:+ "" = t.
Proof.
  induction t as [|a t IH]; [done |]. rewrite <- IH at 2. reflexivity.
Qed.

Lemma string_app_grows (t f : string) : f ≠ "" → t +:+ f ≠ t.
Proof.
  intros Hf Heq. apply Hf. apply (inj (String.app t)).
  by rewrite string_app_empty_r.
Qed.

(** Rendering string content, with the [|| ""] fallback in front. *)
Lemma to_string_or_text (t : string) :
  to_string (js_or (VStr t) (VStr "")) = t.
Proof.
  unfold js_or. simpl. destruct (String.eqb_spec t "") as [->|]; done.
Qed.

Lemma js_add_string_text (t f : string) :
  js_add_string (js_or (VStr t) (VStr "")) f = VStr (t +:+ f).
Proof. unfold js_add_string. by rewrite to_string_or_text. Qed.

Lemma find_fresh_app X store m :
  stored X store = None → Message.id m = X →
  list_find (λ msg, Message.id msg = X) (store ++ [m])
  = Some (length store, m).
Proof.
  unfold stored. rewrite fmap_None. intros Hno Hid.
  rewrite list_find_app_r by done. simpl. by rewrite decide_True.
Qed.

(** A second fragment for an id the first fragment has just created. *)
Lemma appendChunk_twice_new c1 c2 store :
  stored (Message.id c1) store = None → Message.id c2 = Message.id c1 →
  appendChunk c2 (appendChunk c1 store)
  = store ++ [grow (Message.content c2) c1].
Proof.
  intros Hno Hid. rewrite (appendChunk_new _ _ Hno).
  rewrite (appendChunk_found c2 _ (length store) c1)
    by (rewrite Hid; by apply find_fresh_app).
  replace (length store) with (length store + 0)%nat by lia.
  by rewrite insert_app_r.
Qed.
End handler.

(** * The claims *)

(** C1.  First-writer-wins for message content.  Once an id [X] has an
    entry [m] in the store (built by the Token Accumulator, say), no event
    other than a token delta for [X] changes what is stored under [X]: a
    phase-boundary snapshot or an authoritative update carrying a message
    with the same id leaves the entry as it is.  Over a whole session
    history, the entry under [X] is the one obtained by applying only the
    token deltas for [X] to [m]. *)
Theorem first_writer_wins (X : prim) (store : list Message.t) (m : Message.t)
    (e : SessionEvent) (history : list SessionEvent) :
  stored X store = Some m →
  isTokenFor X e = false →
  stored X (dispatch e store) = Some m
  ∧ stored X (run history store)
    = stored X (run (filter (λ e, isTokenFor X e) history) [m]).
Proof.
  intros HX He. split.
  - rewrite (stored_dispatch _ _ _ _ HX). by rewrite react_not_token.
  - assert (Message.id m = X) as Hid.
    { apply stored_find in HX as [i Hf].
      by apply list_find_Some in Hf as (_ & ? & _). }
    rewrite (stored_run _ _ _ _ HX).
    rewrite (stored_run X _ [m] m) by (subst X; apply stored_singleton).
    by rewrite foldl_react_tokens.
Qed.

Lemma first_writer_wins_witness :
  let X := PStr "X" in
  let store :=
    run [tokenEvent "on_chat_model_stream" (textMessage "X" "He")]
        initialMessages in
  let snapshot := endEvent "on_chain_end" [textMessage "X" "Hello"] in
  let history :=
    [snapshot; tokenEvent "on_chat_model_stream" (textMessage "X" "y");
     StreamValue (Some [textMessage "X" "Hello"]); ThreadId "t2"] in
  stored X store = Some (textMessage "X" "He")
  ∧ stored X (dispatch snapshot store) = Some (textMessage "X" "He")
  ∧ stored X (run history store) = Some (textMessage "X" "Hey").
Proof.
  intros X store snapshot history.
  assert (stored X store = Some (textMessage "X" "He")) as HX
    by (vm_compute; reflexivity).
  assert (isTokenFor X snapshot = false) as He by (vm_compute; reflexivity).
  destruct (first_writer_wins X store _ snapshot history HX He) as [H1 H2].
  split; [exact HX |]. split; [exact H1 |].
  rewrite H2. vm_compute. reflexivity.
Defined.

(** C2.  End-to-end scenario.  From the empty store, the token delta
    [{id:"m1", chunk:"Hi"}] leaves the one entry [m1] with content "Hi";
    the delta [{id:"m1", chunk:" there"}] makes its content "Hi there";
    the phase-boundary-end event with the messages
    [{id:"m1", content:"Hi there"}; {id:"m2", content:"done"}] then leaves
    exactly two entries, in this order: [m1] with the content "Hi there"
    that the deltas built, then [m2] with the content "done".  That the
    content of [m1] comes from the deltas and not from the snapshot shows
    in the result being the same whatever content and other fields the
    snapshot gives [m1]; the scenario of the specification is the case in
    which it gives "Hi there".  This holds for every choice of stream and
    end event names. *)
Theorem end_to_end_scenario (n1 n2 n3 : string) (snapshotContent : value)
    (snapshotRest : list (string * value)) :
  isStreamEvent n1 = true → isStreamEvent n2 = true → isEndEvent n3 = true →
  run [ tokenEvent n1 (textMessage "m1" "Hi") ] initialMessages
  = [textMessage "m1" "Hi"]
  ∧ run [ tokenEvent n1 (textMessage "m1" "Hi");
          tokenEvent n2 (textMessage "m1" " there") ] initialMessages
    = [textMessage "m1" "Hi there"]
  ∧ run [ tokenEvent n1 (textMessage "m1" "Hi");
          tokenEvent n2 (textMessage "m1" " there");
          endEvent n3 [ Message.mk (PStr "m1") snapshotContent snapshotRest;
                        textMessage "m2" "done" ] ]
        initialMessages
    = [textMessage "m1" "Hi there"; textMessage "m2" "done"].
Proof.
  intros [-> | ->]%isStreamEvent_names [-> | ->]%isStreamEvent_names
         [-> | [-> | ->]]%isEndEvent_names;
    split_and!; vm_compute; reflexivity.
Qed.

Lemma end_to_end_scenario_witness :
  run [ tokenEvent "on_chat_model_stream" (textMessage "m1" "Hi") ]
      initialMessages
  = [textMessage "m1" "Hi"]
  ∧ run [ tokenEvent "on_chat_model_stream" (textMessage "m1" "Hi");
          tokenEvent "on_chat_model_stream" (textMessage "m1" " there") ]
        initialMessages
    = [textMessage "m1" "Hi there"]
  ∧ run [ tokenEvent "on_chat_model_stream" (textMessage "m1" "Hi");
          tokenEvent "on_chat_model_stream" (textMessage "m1" " there");
          endEvent "on_chain_end"
            [textMessage "m1" "Hi there"; textMessage "m2" "done"] ]
        initialMessages
    = [textMessage "m1" "Hi there"; textMessage "m2" "done"].
Proof.
  apply (end_to_end_scenario "on_chat_model_stream" "on_chat_model_stream"
           "on_chain_end" (VStr "Hi there") []); reflexivity.
Defined.

(** C3.  Content-type merge of the Token Accumulator.  For an id [X] that
    the store does not hold yet, the string fragments "He" then "llo" leave
    one new entry whose content is "Hello", and the block-array fragments
    [[a]] then [[b]] leave one new entry whose content is [[a, b]]; the
    entry is appended after everything the store already held. *)
Theorem token_accumulation_by_type (n1 n2 : string) (X : prim)
    (r1 r2 : list (string * value)) (a b : value) (store : list Message.t) :
  isStreamEvent n1 = true → isStreamEvent n2 = true →
  truthy_prim X = true → stored X store = None →
  run [ tokenEvent n1 (Message.mk X (VStr "He") r1);
        tokenEvent n2 (Message.mk X (VStr "llo") r2) ] store
  = store ++ [Message.mk X (VStr "Hello") r1]
  ∧ run [ tokenEvent n1 (Message.mk X (VArr [a]) r1);
          tokenEvent n2 (Message.mk X (VArr [b]) r2) ] store
    = store ++ [Message.mk X (VArr [a; b]) r1].
Proof.
  intros H1 H2 HX Hnew. unfold run. cbn [foldl].
  rewrite !(dispatch_tokenEvent n1), !(dispatch_tokenEvent n2) by done.
  simpl. rewrite HX. simpl.
  split; by rewrite appendChunk_twice_new.
Qed.

Lemma token_accumulation_by_type_witness :
  let a := VObj [("type", VStr "text"); ("text", VStr "He")] in
  let b := VObj [("type", VStr "text"); ("text", VStr "llo")] in
  run [ tokenEvent "on_chat_model_stream" (textMessage "m1" "He");
        tokenEvent "on_chat_model_stream" (textMessage "m1" "llo") ]
      initialMessages
  = [textMessage "m1" "Hello"]
  ∧ run [ tokenEvent "on_chat_model_stream" (Message.mk (PStr "m1") (VArr [a]) []);
          tokenEvent "on_chat_model_stream" (Message.mk (PStr "m1") (VArr [b]) []) ]
        initialMessages
    = [Message.mk (PStr "m1") (VArr [a; b]) []].
Proof.
  intros a b.
  apply (token_accumulation_by_type "on_chat_model_stream"
           "on_chat_model_stream" (PStr "m1") [] [] a b initialMessages);
    reflexivity.
Defined.

(** C4.  The claim asks that a string fragment meeting stored content
    that is not a string be merged into a sequence that boxes the previous
    value.  The array branch of the updater (lines 138-144) does box
    content that is not an array: with "He" stored under "m1", the fragment
    [[{type:"text", text:"llo"}]] leaves [["He", {type:"text",
    text:"llo"}]].  The string branch (lines 133-137) does not: with the
    one-block array [[{type:"text", text:"He"}]] stored under "m1", the
    string fragment "llo" leaves the flat string "[object Object]llo", in
    which the block is lost, and not the sequence the claim describes. *)
Theorem string_fragment_not_boxed :
  let block := VObj [("type", VStr "text"); ("text", VStr "He")] in
  let store := [Message.mk (PStr "m1") (VArr [block]) []] in
  let ev := {| event := "on_chat_model_stream";
               data := {| chunk := Some (textMessage "m1" "llo");
                          output_messages := None |} |} in
  let block' := VObj [("type", VStr "text"); ("text", VStr "llo")] in
  let ev' := {| event := "on_chat_model_stream";
                data := {| chunk := Some (Message.mk (PStr "m1") (VArr [block']) []);
                           output_messages := None |} |} in
  Message.content <$> stored (PStr "m1") (onLangChainEvent ev store)
  = Some (VStr "[object Object]llo")
  ∧ isArray <$> (Message.content <$> stored (PStr "m1") (onLangChainEvent ev store))
    = Some false
  ∧ Message.content <$> stored (PStr "m1") (onLangChainEvent ev store)
    ≠ Some (specBoxAppend (VArr [block]) "llo")
  ∧ Message.content
      <$> stored (PStr "m1") (onLangChainEvent ev' [textMessage "m1" "He"])
    = Some (VArr [VStr "He"; block']).
Proof.
  intros block store ev block' ev'.
  split_and!; [done | done | discriminate | done].
Qed.

(** C5, as the code has it.  A token delta whose fragment is absent
    ([undefined] or [null]) or the empty string leaves the store exactly as
    it was; in particular it creates no entry. *)
Theorem empty_fragment_is_noop (ev : LangChainEvent) (c : Message.t)
    (store : list Message.t) :
  isStreamEvent (event ev) = true → chunk (data ev) = Some c →
  Message.content c = VPrim PUndefined
  ∨ Message.content c = VPrim PNull
  ∨ Message.content c = VStr "" →
  onLangChainEvent ev store = store.
Proof.
  intros Hs Hc Hempty. rewrite (onLangChainEvent_token _ _ _ Hs Hc).
  destruct Hempty as [-> | [-> | ->]]; simpl; by rewrite andb_false_r.
Qed.

Lemma empty_fragment_is_noop_witness :
  let ev := {| event := "on_chat_model_stream";
               data := {| chunk := Some (textMessage "m2" "");
                          output_messages := None |} |} in
  onLangChainEvent ev [textMessage "m1" "Hi"] = [textMessage "m1" "Hi"].
Proof.
  intros ev.
  apply (empty_fragment_is_noop ev (textMessage "m2" "") [textMessage "m1" "Hi"]);
    [reflexivity | reflexivity | right; right; reflexivity].
Defined.

(** C5, as stated, fails on the empty block array: [[]] passes the content
    test of lines 118-122, so a delta carrying it for a new id creates an
    entry, and for a known id with string content it boxes that content. *)
Lemma empty_block_array_is_processed :
  let ev := {| event := "on_chat_model_stream";
               data := {| chunk := Some (Message.mk (PStr "m1") (VArr []) []);
                          output_messages := None |} |} in
  onLangChainEvent ev initialMessages = [Message.mk (PStr "m1") (VArr []) []]
  ∧ onLangChainEvent ev initialMessages ≠ initialMessages
  ∧ onLangChainEvent ev [textMessage "m1" "He"]
    = [Message.mk (PStr "m1") (VArr [VStr "He"]) []]
  ∧ onLangChainEvent ev [textMessage "m1" "He"] ≠ [textMessage "m1" "He"].
Proof. intros ev. split_and!; [done | discriminate | done | discriminate]. Qed.

(** C6.  Idempotent union by id: for every store and every snapshot list,
    merging the list twice in succession through the Snapshot Merger gives
    the store that merging it once gives. *)
Theorem snapshot_merge_idempotent (incoming store : list Message.t) :
  mergeOutputMessages incoming (mergeOutputMessages incoming store)
  = mergeOutputMessages incoming store.
Proof. rewrite !mergeOutputMessages_guarded. apply guardedMerge_idem. Qed.

(** C7.  Duplicate delta delivery is not deduplicated.  When the store
    holds string content [text] under an id, delivering the same token
    delta with a non-empty fragment twice leaves [text] followed by the
    fragment twice, and the store after the second delivery differs from
    the store after the first. *)
Theorem duplicate_delta_appends_twice (ev : LangChainEvent) (c m : Message.t)
    (fragment text : string) (store : list Message.t) :
  isStreamEvent (event ev) = true → chunk (data ev) = Some c →
  truthy_prim (Message.id c) = true →
  Message.content c = VStr fragment → fragment ≠ "" →
  stored (Message.id c) store = Some m → Message.content m = VStr text →
  Message.content
    <$> stored (Message.id c) (onLangChainEvent ev (onLangChainEvent ev store))
  = Some (VStr ((text +:+ fragment) +:+ fragment))
  ∧ onLangChainEvent ev (onLangChainEvent ev store) ≠ onLangChainEvent ev store.
Proof.
  intros Hs Hc Hid Hcont Hne HX Htext.
  assert (validContent (Message.content c) = true) as Hvalid.
  { rewrite Hcont. simpl. by destruct (String.eqb_spec fragment ""). }
  assert (∀ s, onLangChainEvent ev s = appendChunk c s) as Hstep.
  { intros s. by rewrite (onLangChainEvent_token _ _ _ Hs Hc), Hid, Hvalid. }
  rewrite !Hstep.
  pose proof (stored_appendChunk _ c _ _ HX) as H1.
  rewrite bool_decide_eq_true_2 in H1 by done.
  pose proof (stored_appendChunk _ c _ _ H1) as H2.
  rewrite bool_decide_eq_true_2 in H2 by done.
  rewrite Hcont in H1, H2. simpl in H1, H2.
  rewrite Htext, !js_add_string_text in H1, H2.
  rewrite js_add_string_text in H2.
  split.
  - by rewrite H2.
  - intros Heq. rewrite Heq, H1 in H2. simplify_eq.
    by eapply string_app_grows.
Qed.

Lemma duplicate_delta_appends_twice_witness :
  let ev := {| event := "on_chat_model_stream";
               data := {| chunk := Some (textMessage "m1" "lo");
                          output_messages := None |} |} in
  let store := [textMessage "m1" "Hel"] in
  onLangChainEvent ev store = [textMessage "m1" "Hello"]
  ∧ Message.content
      <$> stored (PStr "m1") (onLangChainEvent ev (onLangChainEvent ev store))
    = Some (VStr "Hellolo")
  ∧ onLangChainEvent ev (onLangChainEvent ev store) ≠ onLangChainEvent ev store.
Proof.
  intros ev store. split; [reflexivity |].
  apply (duplicate_delta_appends_twice ev (textMessage "m1" "lo")
           (textMessage "m1" "Hel") "lo" "Hel" store); done.
Defined.



(** C9, as the code has it.  The Authoritative Sync Merger and the Snapshot
    Merger are the same function of the incoming list and the store: both
    drop the incoming messages whose id is falsy, filter the remaining ones
    to ids the store does not hold yet, and append what is left, in its
    order, to the end of the store. *)
Theorem mergers_share_guarded_policy (incoming store : list Message.t) :
  mergeStreamMessages incoming store = mergeOutputMessages incoming store
  ∧ mergeOutputMessages incoming store = guardedMerge incoming store
  ∧ guardedMerge incoming store
    = specMerge (filter (λ msg, truthy_prim (Message.id msg) = true) incoming)
                store.
Proof.
  split_and!.
  - by rewrite mergeStreamMessages_guarded, mergeOutputMessages_guarded.
  - apply mergeOutputMessages_guarded.
  - unfold guardedMerge, specMerge. f_equal. rewrite list_filter_filter.
    apply list_filter_iff. intros msg. tauto.
Qed.

(** C9, as stated, fails: the policy worded without the guard appends a
    message whose id is the empty string (or is absent), since that id is
    not in the store; both mergers drop it. *)
Lemma unguarded_policy_differs :
  mergeOutputMessages [textMessage "" "x"] initialMessages = initialMessages
  ∧ mergeStreamMessages [textMessage "" "x"] initialMessages = initialMessages
  ∧ specMerge [textMessage "" "x"] initialMessages = [textMessage "" "x"]
  ∧ mergeOutputMessages [textMessage "" "x"] initialMessages
    ≠ specMerge [textMessage "" "x"] initialMessages
  ∧ mergeStreamMessages [textMessage "" "x"] initialMessages
    ≠ specMerge [textMessage "" "x"] initialMessages.
Proof. split_and!; [done | done | done | discriminate | discriminate]. Qed.

(** C10.  A message whose id is absent or falsy is never added by either
    merger: what the Snapshot Merger and the Authoritative Sync Merger
    append is a sub-list of the incoming list in which every id is truthy.
    With the token branch guarded the same way, every entry of every store
    reachable from the empty one has a truthy id. *)
Theorem falsy_ids_never_stored (incoming store : list Message.t)
    (history : list SessionEvent) :
  (∃ added, mergeOutputMessages incoming store = store ++ added
            ∧ added `sublist_of` incoming ∧ allIdsTruthy added)
  ∧ (∃ added, mergeStreamMessages incoming store = store ++ added
              ∧ added `sublist_of` incoming ∧ allIdsTruthy added)
  ∧ allIdsTruthy (run history initialMessages).
Proof.
  split_and!.
  - rewrite mergeOutputMessages_guarded. apply guardedMerge_added.
  - rewrite mergeStreamMessages_guarded. apply guardedMerge_added.
  - apply allIdsTruthy_run. constructor.
Qed.


(** * Further properties of the reconciliation code *)

Set Warnings "-clear-no-such-hyp".

Section id_sets.
Implicit Types (store incoming : list Message.t) (m c : Message.t)
  (e : SessionEvent).

Lemma guardedMerge_fresh incoming store :
  guardedMerge incoming store = store ++ freshMessages incoming store.
Proof. reflexivity. Qed.

(** Every event is a token update, a merge, or nothing. *)
Lemma dispatch_cases e store :
  dispatch e store
  = match processedChunk e, mergedList e with
    | Some c, _ => appendChunk c store
    | None, Some msgs => guardedMerge msgs store
    | None, None => store
    end.
Proof.
  destruct e as [ev | [l|] | | |]; simpl; [| |done..].
  - unfold onLangChainEvent. destruct (isStreamEvent (event ev)).
    + destruct (chunk (data ev)) as [c|]; [|done]. by destruct (_ && _).
    + destruct (isEndEvent (event ev)); [|done].
      destruct (output_messages (data ev)); [|done].
      apply mergeOutputMessages_guarded.
  - apply mergeStreamMessages_guarded.
Qed.

Lemma elem_of_truthyIds (x : prim) incoming :
  x ∈ truthyIds incoming
  ↔ truthy_prim x = true ∧ ∃ m, m ∈ incoming ∧ Message.id m = x.
Proof.
  unfold truthyIds. rewrite list_elem_of_filter, list_elem_of_fmap. split.
  - intros [Hid (m & -> & Hm)]. eauto.
  - intros [Hid (m & Hm & <-)]. eauto.
Qed.

Lemma elem_of_freshMessages m incoming store :
  m ∈ freshMessages incoming store
  ↔ m ∈ incoming ∧ truthy_prim (Message.id m) = true
    ∧ Message.id m ∉ Message.id <$> store.
Proof. unfold freshMessages. rewrite list_elem_of_filter. tauto. Qed.

Lemma idSet_guardedMerge incoming store :
  idSet (guardedMerge incoming store)
  = idSet store ∪ list_to_set (truthyIds incoming).
Proof.
  apply set_eq. intros x. unfold idSet, guardedMerge.
  rewrite fmap_app, list_to_set_app_L, !elem_of_union, !elem_of_list_to_set.
  rewrite elem_of_truthyIds. split.
  - intros [? | (m & -> & Hm)%list_elem_of_fmap]; [by left |].
    apply list_elem_of_filter in Hm as [[Hid _] Hin]. right. eauto.
  - intros [? | (Hid & m & Hin & <-)]; [by left |].
    destruct (decide (Message.id m ∈ Message.id <$> store)); [by left |].
    right. apply list_elem_of_fmap. exists m. split; [done |].
    by apply list_elem_of_filter.
Qed.

Lemma ids_appendChunk c store :
  Message.id <$> appendChunk c store
  = (Message.id <$> store)
    ++ (if stored (Message.id c) store is Some _ then [] else [Message.id c]).
Proof.
  unfold stored.
  destruct (list_find (λ msg, Message.id msg = Message.id c) store)
    as [[i m]|] eqn:Hf; simpl.
  - rewrite (appendChunk_found _ _ _ _ Hf), list_fmap_insert, id_grow.
    apply list_find_Some in Hf as (Hi & _).
    rewrite list_insert_id, app_nil_r; [done |].
    by rewrite list_lookup_fmap, Hi.
  - rewrite appendChunk_new by (unfold stored; by rewrite Hf).
    by rewrite fmap_app.
Qed.

Lemma idSet_appendChunk c store :
  idSet (appendChunk c store) = idSet store ∪ {[ Message.id c ]}.
Proof.
  unfold idSet. rewrite ids_appendChunk, list_to_set_app_L.
  destruct (stored (Message.id c) store) as [m|] eqn:HX; simpl.
  - apply stored_find in HX as [i (Hi & Hid & _)%list_find_Some].
    assert (Message.id c ∈ Message.id <$> store).
    { rewrite <- Hid. apply list_elem_of_fmap_2. by eapply list_elem_of_lookup_2. }
    set_solver.
  - set_solver.
Qed.

Lemma idSet_dispatch e store :
  idSet (dispatch e store) = idSet store ∪ introduces e.
Proof.
  rewrite dispatch_cases. unfold introduces.
  destruct (processedChunk e) as [c|]; [apply idSet_appendChunk |].
  destruct (mergedList e) as [l|]; [apply idSet_guardedMerge |].
  set_solver.
Qed.

Lemma idSet_run history store :
  idSet (run history store) = idSet store ∪ ⋃ (introduces <$> history).
Proof.
  unfold run. revert store.
  induction history as [|e history IH]; intros store; simpl.
  - set_solver.
  - rewrite IH, idSet_dispatch. set_solver.
Qed.
End id_sets.

Section positions.
Implicit Types (store incoming : list Message.t) (m c : Message.t)
  (e : SessionEvent) (X : prim).

Lemma ids_of_shells store :
  Message.id <$> store = fst <$> (Message.shell <$> store).
Proof. by rewrite <- list_fmap_compose. Qed.

Lemma run_ids_prefix history store :
  Message.id <$> store `prefix_of` Message.id <$> run history store.
Proof.
  rewrite !ids_of_shells. destruct (run_shells history store) as [k ->].
  rewrite fmap_app. by apply prefix_app_r.
Qed.

(** A longer store with the same ids in front finds [X] at the same
    index. *)
Lemma find_ids_prefix X store store' i m :
  Message.id <$> store `prefix_of` Message.id <$> store' →
  list_find (λ msg, Message.id msg = X) store = Some (i, m) →
  ∃ m', list_find (λ msg, Message.id msg = X) store' = Some (i, m').
Proof.
  intros Hpre (Hi & Hid & Hleast)%list_find_Some.
  assert (∀ j y, store !! j = Some y →
            ∃ y', store' !! j = Some y' ∧ Message.id y' = Message.id y) as Hat.
  { intros j y Hj.
    assert ((Message.id <$> store') !! j = Some (Message.id y)) as Hj'.
    { eapply prefix_lookup_Some; [|done]. by rewrite list_lookup_fmap, Hj. }
    rewrite list_lookup_fmap in Hj'.
    destruct (store' !! j) as [y'|]; simplify_eq/=. eauto. }
  destruct (Hat i m Hi) as (m' & Hi' & Hid').
  exists m'. apply list_find_Some. split_and!; [done | congruence |].
  intros j y' Hj' Hlt Hy'.
  destruct (lookup_lt_is_Some_2 store j) as [y Hj].
  { apply lookup_lt_Some in Hi. lia. }
  destruct (Hat j y Hj) as (y'' & Hj'' & Hid'').
  apply (Hleast j y Hj Hlt). congruence.
Qed.

Lemma NoDup_ids_appendChunk c store :
  NoDup (Message.id <$> store) → NoDup (Message.id <$> appendChunk c store).
Proof.
  intros Hs. rewrite ids_appendChunk.
  destruct (stored (Message.id c) store) eqn:HX; [by rewrite app_nil_r |].
  apply NoDup_app. split_and!; [done | | apply NoDup_singleton].
  intros x Hx ->%list_elem_of_singleton. by apply stored_None in HX.
Qed.

Lemma NoDup_ids_guardedMerge incoming store :
  NoDup (Message.id <$> guardedMerge incoming store)
  ↔ NoDup (Message.id <$> store)
    ∧ NoDup (Message.id <$> freshMessages incoming store).
Proof.
  rewrite guardedMerge_fresh, fmap_app, NoDup_app.
  split; [tauto |]. intros [Hs Hf]. split_and!; [done | | done].
  intros x Hx (m & -> & Hm)%list_elem_of_fmap.
  by apply elem_of_freshMessages in Hm as (_ & _ & Hnew).
Qed.

Lemma fresh_ids_sublist incoming store :
  Message.id <$> freshMessages incoming store `sublist_of` truthyIds incoming.
Proof.
  unfold freshMessages, truthyIds.
  induction incoming as [|m incoming IH]; [done |].
  rewrite fmap_cons, (filter_cons _ (Message.id m)), filter_cons.
  destruct (decide (truthy_prim (Message.id m) = true)) as [Hid|Hid].
  - case_decide; [by constructor | by apply sublist_cons].
  - rewrite decide_False by tauto. done.
Qed.

Lemma NoDup_ids_dispatch e store :
  payloadDistinct e →
  NoDup (Message.id <$> store) → NoDup (Message.id <$> dispatch e store).
Proof.
  unfold payloadDistinct. intros He Hs. rewrite dispatch_cases.
  destruct (processedChunk e) as [c|]; [by apply NoDup_ids_appendChunk |].
  destruct (mergedList e) as [l|]; [|done].
  apply NoDup_ids_guardedMerge. split; [done |].
  eapply sublist_NoDup; [exact He | apply fresh_ids_sublist].
Qed.

Lemma NoDup_ids_run history store :
  Forall payloadDistinct history →
  NoDup (Message.id <$> store) → NoDup (Message.id <$> run history store).
Proof.
  unfold run. intros Hh. revert store.
  induction Hh as [|e history He Hh IH]; intros store Hs; [done |].
  simpl. by apply IH, NoDup_ids_dispatch.
Qed.
End positions.

Section lookups.
Implicit Types (store incoming : list Message.t) (m c : Message.t)
  (e : SessionEvent) (X : prim).

Lemma guardedMerge_noop incoming store :
  guardedMerge incoming store = store
  ↔ ∀ m, m ∈ incoming → truthy_prim (Message.id m) = true →
         Message.id m ∈ Message.id <$> store.
Proof.
  split; [|apply filter_all_known].
  rewrite guardedMerge_fresh. intros Heq m Hin Hid.
  destruct (decide (Message.id m ∈ Message.id <$> store)) as [|Hnew]; [done |].
  assert (m ∈ freshMessages incoming store) as Hm
    by by apply elem_of_freshMessages.
  assert (freshMessages incoming store = []) as Hnil.
  { apply (app_inv_head store). by rewrite app_nil_r. }
  rewrite Hnil in Hm. by apply elem_of_nil in Hm.
Qed.

Lemma dispatch_idem e store :
  processedChunk e = None →
  dispatch e (dispatch e store) = dispatch e store.
Proof.
  intros He. rewrite !dispatch_cases, He.
  destruct (mergedList e); [apply guardedMerge_idem | done].
Qed.

(** Looking for [X] among entries that a filter keeps whenever they carry
    [X] finds what looking in the whole list finds. *)
Lemma stored_filter_keep X (Q : Message.t → Prop) `{!∀ x, Decision (Q x)}
    incoming :
  (∀ m, Message.id m = X → Q m) →
  stored X (filter Q incoming) = stored X incoming.
Proof.
  intros Hkeep. unfold stored.
  induction incoming as [|m incoming IH]; [done |].
  rewrite filter_cons. destruct (decide (Message.id m = X)) as [Hid|Hid].
  - rewrite decide_True by auto. simpl. by rewrite !decide_True.
  - case_decide; simpl; rewrite !decide_False by done.
    + revert IH. unfold filter.
      destruct (list_find _ (list_filter Q _ incoming)) as [[]|],
               (list_find _ incoming) as [[]|]; simpl; congruence.
    + destruct (list_find _ incoming) as [[]|]; simpl in *; done.
Qed.

Lemma stored_filter_drop X (Q : Message.t → Prop) `{!∀ x, Decision (Q x)}
    incoming :
  (∀ m, Message.id m = X → ¬ Q m) →
  stored X (filter Q incoming) = None.
Proof.
  intros Hdrop. apply stored_None.
  intros (m & -> & [HQ _]%list_elem_of_filter)%list_elem_of_fmap.
  by apply (Hdrop m).
Qed.

Lemma stored_app_r X store more :
  stored X store = None → stored X (store ++ more) = stored X more.
Proof.
  unfold stored. intros Hno%fmap_None.
  rewrite list_find_app_r by done.
  by destruct (list_find _ more) as [[]|].
Qed.

Lemma stored_guardedMerge_any X incoming store :
  stored X (guardedMerge incoming store)
  = match stored X store with
    | Some m => Some m
    | None => if truthy_prim X then stored X incoming else None
    end.
Proof.
  destruct (stored X store) as [m|] eqn:HX; [by apply stored_guardedMerge |].
  rewrite guardedMerge_fresh, stored_app_r by done. unfold freshMessages.
  destruct (truthy_prim X) eqn:Hid.
  - apply stored_filter_keep. intros m <-. split; [done |].
    by apply stored_None.
  - apply stored_filter_drop. intros m <- [Hm _]. congruence.
Qed.

Lemma stored_appendChunk_other X c store :
  Message.id c ≠ X → stored X (appendChunk c store) = stored X store.
Proof.
  intros Hne.
  destruct (list_find (λ msg, Message.id msg = Message.id c) store)
    as [[j m0]|] eqn:Hf.
  - rewrite (appendChunk_found _ _ _ _ Hf).
    apply list_find_Some in Hf as (Hj & Hid & _).
    unfold stored. rewrite (find_insert_other _ _ _ m0); [done.. | |].
    + congruence.
    + rewrite id_grow. congruence.
  - rewrite appendChunk_new by (unfold stored; by rewrite Hf).
    destruct (stored X store) as [m|] eqn:HX; [by apply stored_app_l |].
    rewrite stored_app_r by done. unfold stored. simpl.
    by rewrite decide_False.
Qed.

Lemma stored_appendChunk_same c store :
  stored (Message.id c) (appendChunk c store)
  = Some (match stored (Message.id c) store with
          | Some m => grow (Message.content c) m
          | None => c
          end).
Proof.
  destruct (stored (Message.id c) store) as [m|] eqn:HX.
  - rewrite (stored_appendChunk _ _ _ _ HX). by rewrite bool_decide_eq_true_2.
  - rewrite (appendChunk_new _ _ HX), stored_app_r by done.
    apply stored_singleton.
Qed.

Lemma appendChunk_ignored c store m :
  isText (Message.content c) = false → isArray (Message.content c) = false →
  stored (Message.id c) store = Some m →
  appendChunk c store = store.
Proof.
  intros Ht Ha [i Hf]%stored_find. rewrite (appendChunk_found _ _ _ _ Hf).
  apply list_find_Some in Hf as (Hi & _).
  apply list_insert_id. rewrite Hi. f_equal.
  by destruct (Message.content c) as [[]| |].
Qed.

Lemma length_dispatch e store :
  length (dispatch e store) ≤ length store + payloadSize e.
Proof.
  rewrite dispatch_cases. unfold payloadSize.
  destruct (processedChunk e) as [c|].
  - rewrite <- (length_fmap Message.id), ids_appendChunk, length_app, length_fmap.
    destruct (stored _ _); simpl; lia.
  - destruct (mergedList e) as [l|]; [|lia].
    rewrite guardedMerge_fresh, length_app.
    pose proof (length_filter
      (λ msg, truthy_prim (Message.id msg) = true
              ∧ Message.id msg ∉ Message.id <$> store) l).
    unfold freshMessages. lia.
Qed.

Lemma length_run history store :
  length (run history store)
  ≤ length store + sum_list (payloadSize <$> history).
Proof.
  unfold run. revert store.
  induction history as [|e history IH]; intros store; [simpl; lia |].
  pose proof (IH (dispatch e store)). pose proof (length_dispatch e store).
  rewrite fmap_cons. cbn [foldl sum_list_with] in *. unfold id at 1. lia.
Qed.
End lookups.

Section accumulation.
Implicit Types (store : list Message.t) (m c : Message.t)
  (e : SessionEvent) (X : prim).

Lemma react_fragment X e m :
  react X e m
  = match fragmentOf X e with Some v => grow v m | None => m end.
Proof.
  destruct e as [ev| | | |]; [|done..]. unfold fragmentOf. simpl.
  destruct (isStreamEvent (event ev)); [|done].
  destruct (chunk (data ev)) as [c|]; [|done].
  destruct (truthy_prim (Message.id c) && validContent (Message.content c)).
  - rewrite andb_true_r. by case_bool_decide.
  - by rewrite andb_false_r.
Qed.

Lemma foldl_react_fragments X history m :
  foldl (λ m e, react X e m) m history
  = foldl (λ m v, grow v m) m (fragmentsFor X history).
Proof.
  revert m. induction history as [|e history IH]; intros m; [done |].
  unfold fragmentsFor. simpl. rewrite react_fragment.
  destruct (fragmentOf X e); simpl; apply IH.
Qed.

Lemma stored_run_fragments X history store m :
  stored X store = Some m →
  stored X (run history store)
  = Some (foldl (λ m v, grow v m) m (fragmentsFor X history)).
Proof.
  intros HX. by rewrite (stored_run _ _ _ _ HX), foldl_react_fragments.
Qed.

Lemma string_app_assoc (a b c : string) : (a +:+ b) +:+ c = a +:+ (b +:+ c).
Proof.
  induction a as [|x a IH]; [done |].
  change (String x ((a +:+ b) +:+ c) = String x (a +:+ (b +:+ c))).
  by rewrite IH.
Qed.

Lemma grow_texts (vs : list value) m (t : string) :
  Forall (λ v, isText v = true) vs → Message.content m = VStr t →
  Message.content (foldl (λ m v, grow v m) m vs) = VStr (t +:+ joinTexts vs).
Proof.
  intros Hvs. revert m t.
  induction Hvs as [|v vs Hv Hvs IH]; intros m t Hm; simpl.
  - by rewrite string_app_empty_r.
  - destruct v as [[| | | |f]| |]; try done.
    rewrite (IH _ (t +:+ f)).
    + by rewrite string_app_assoc.
    + simpl. by rewrite Hm, js_add_string_text.
Qed.

Lemma grow_blocks (vs : list value) m (l : list value) :
  Forall (λ v, isArray v = true) vs → Message.content m = VArr l →
  Message.content (foldl (λ m v, grow v m) m vs) = VArr (l ++ joinBlocks vs).
Proof.
  intros Hvs. revert m l.
  induction Hvs as [|v vs Hv Hvs IH]; intros m l Hm; simpl.
  - by rewrite app_nil_r.
  - destruct v as [| b |]; try done.
    rewrite (IH _ (l ++ b)).
    + unfold joinBlocks. simpl. by rewrite app_assoc.
    + simpl. by rewrite Hm.
Qed.

Lemma mergedList_not_processed e msgs :
  mergedList e = Some msgs → processedChunk e = None.
Proof.
  destruct e as [ev| | | |]; try done. simpl.
  by destruct (isStreamEvent (event ev)).
Qed.
End accumulation.

(** ** The provider and the probe *)

Section provider.
Lemma string_or_empty_nonempty (a : option string) :
  string_or_empty a ≠ "" ↔ ∃ s, a = Some s ∧ s ≠ "".
Proof.
  destruct a as [s|]; simpl.
  - destruct (String.eqb_spec s ""); naive_solver.
  - naive_solver.
Qed.

Lemma string_not_or (a : string) (b : option string) :
  string_not (string_or a b) = true ↔ a = "" ∧ string_or_empty b = "".
Proof.
  unfold string_or, string_not.
  destruct (String.eqb_spec a "") as [->|Ha].
  - destruct b as [s|]; simpl; [|done].
    destruct (String.eqb_spec s ""); naive_solver.
  - apply String.eqb_neq in Ha. rewrite Ha. naive_solver.
Qed.

Lemma probeInit_normalised (storedKey : option string) :
  probeInit (Some (string_or_empty storedKey)) = probeInit storedKey.
Proof.
  destruct storedKey as [k|]; simpl; [|done].
  destruct (String.eqb_spec k "") as [->|Hk]; simpl; [done |].
  by apply String.eqb_neq in Hk as ->.
Qed.
End provider.

(** * Further theorems *)

(** X1.  The ids in the store after a merge are the ids that were in it
    together with the truthy ids of the incoming list; this holds for the
    Snapshot Merger and for the Authoritative Sync Merger. *)
Theorem merge_id_set (incoming store : list Message.t) :
  idSet (mergeOutputMessages incoming store)
  = idSet store ∪ list_to_set (truthyIds incoming)
  ∧ idSet (mergeStreamMessages incoming store)
    = idSet store ∪ list_to_set (truthyIds incoming).
Proof.
  rewrite mergeOutputMessages_guarded, mergeStreamMessages_guarded.
  split; apply idSet_guardedMerge.
Qed.

(** X2.  The set of ids a session ends with does not depend on the order
    in which its events arrived: two histories that are permutations of one
    another leave the same id set (the order and the contents of the
    entries may differ). *)
Theorem id_set_order_independent (history history' : list SessionEvent)
    (store : list Message.t) :
  history ≡ₚ history' →
  idSet (run history store) = idSet (run history' store).
Proof.
  intros Hperm. rewrite !idSet_run. f_equal.
  apply leibniz_equiv. by rewrite Hperm.
Qed.

Lemma id_set_order_independent_witness :
  let delta := tokenEvent "on_chat_model_stream" (textMessage "m1" "Hi") in
  let snapshot :=
    endEvent "on_chain_end" [textMessage "m1" "Hi there"; textMessage "m2" "done"] in
  [delta; snapshot] ≡ₚ [snapshot; delta]
  ∧ idSet (run [delta; snapshot] initialMessages)
    = idSet (run [snapshot; delta] initialMessages)
  ∧ run [delta; snapshot] initialMessages
    ≠ run [snapshot; delta] initialMessages.
Proof.
  intros delta snapshot. split; [apply perm_swap |]. split.
  - apply (id_set_order_independent [delta; snapshot] [snapshot; delta]).
    apply perm_swap.
  - vm_compute. discriminate.
Defined.

(** X3.  Position stability: the index at which the component finds an id
    never changes, whatever events follow. *)
Theorem index_stable (X : prim) (store : list Message.t) (i : nat)
    (m : Message.t) (history : list SessionEvent) :
  list_find (λ msg, Message.id msg = X) store = Some (i, m) →
  fst <$> list_find (λ msg, Message.id msg = X) (run history store) = Some i.
Proof.
  intros Hf.
  destruct (find_ids_prefix X store (run history store) i m) as [m' ->];
    [apply run_ids_prefix | done | done].
Qed.

Lemma index_stable_witness :
  let store := [textMessage "m0" "a"; textMessage "m1" "He"] in
  let history :=
    [ StreamValue (Some [textMessage "m9" "z"; textMessage "m1" "Hello"]);
      tokenEvent "on_chat_model_stream" (textMessage "m1" "y") ] in
  list_find (λ msg, Message.id msg = PStr "m1") store
  = Some (1%nat, textMessage "m1" "He")
  ∧ fst <$> list_find (λ msg, Message.id msg = PStr "m1") (run history store)
    = Some 1%nat.
Proof.
  intros store history. split; [reflexivity |].
  apply (index_stable (PStr "m1") store 1 (textMessage "m1" "He") history).
  reflexivity.
Defined.

(** X4.  A token event never makes two entries share an id: if the ids of
    the store are pairwise distinct before a stream event, they are after
    it. *)
Theorem token_keeps_ids_distinct (ev : LangChainEvent) (store : list Message.t) :
  isStreamEvent (event ev) = true →
  NoDup (Message.id <$> store) →
  NoDup (Message.id <$> onLangChainEvent ev store).
Proof.
  intros Hs Hd. change (NoDup (Message.id <$> dispatch (LangChain ev) store)).
  apply NoDup_ids_dispatch; [|done].
  unfold payloadDistinct. simpl. by rewrite Hs.
Qed.

Lemma token_keeps_ids_distinct_witness :
  let ev := {| event := "on_chain_stream";
               data := {| chunk := Some (textMessage "m1" "y");
                          output_messages := None |} |} in
  let store := [textMessage "m0" "a"; textMessage "m1" "He"] in
  NoDup (Message.id <$> store)
  ∧ NoDup (Message.id <$> onLangChainEvent ev store).
Proof.
  intros ev store.
  assert (NoDup (Message.id <$> store)) as Hd.
  { apply (bool_decide_unpack _). vm_compute. exact I. }
  split; [exact Hd |].
  apply (token_keeps_ids_distinct ev store); [reflexivity | exact Hd].
Defined.

(** X5.  Entries have pairwise distinct ids in every store reached from
    the empty one, provided no merged list (snapshot or authoritative)
    names a truthy id twice. *)
Theorem distinct_payloads_keep_ids_distinct (history : list SessionEvent) :
  Forall payloadDistinct history →
  NoDup (Message.id <$> run history initialMessages).
Proof. intros Hh. apply NoDup_ids_run; [done | constructor]. Qed.

Lemma distinct_payloads_keep_ids_distinct_witness :
  let history :=
    [ tokenEvent "on_chat_model_stream" (textMessage "m1" "Hi");
      endEvent "on_chain_end" [textMessage "m1" "Hi there"; textMessage "m2" "done"];
      StreamValue (Some [textMessage "m2" "done"; textMessage "m3" "more"]) ] in
  Forall payloadDistinct history
  ∧ NoDup (Message.id <$> run history initialMessages).
Proof.
  intros history.
  assert (Forall payloadDistinct history) as Hh.
  { repeat constructor; unfold payloadDistinct; simpl;
      apply (bool_decide_unpack _); vm_compute; exact I. }
  split; [exact Hh |].
  apply (distinct_payloads_keep_ids_distinct history Hh).
Defined.

(** X6.  A merge leaves pairwise distinct ids exactly when the store had
    them and the part of the incoming list it appends has them: ids are
    compared with the store only, never within the incoming list, so an
    incoming list that names a new id twice puts both messages in. *)
Theorem merge_ids_distinct_iff (incoming store : list Message.t) :
  (NoDup (Message.id <$> mergeOutputMessages incoming store)
   ↔ NoDup (Message.id <$> store)
     ∧ NoDup (Message.id <$> freshMessages incoming store))
  ∧ (NoDup (Message.id <$> mergeStreamMessages incoming store)
     ↔ NoDup (Message.id <$> store)
       ∧ NoDup (Message.id <$> freshMessages incoming store)).
Proof.
  rewrite mergeOutputMessages_guarded, mergeStreamMessages_guarded.
  split; apply NoDup_ids_guardedMerge.
Qed.

(** X7.  Every event that does not reach the token updater is idempotent:
    handling it a second time right away leaves the store as the first
    handling left it.  This covers phase-end events, every run of the
    [streamValue] effect, and all events that are ignored. *)
Theorem untokened_event_idempotent (e : SessionEvent) (store : list Message.t) :
  processedChunk e = None →
  dispatch e (dispatch e store) = dispatch e store.
Proof. apply dispatch_idem. Qed.

Lemma untokened_event_idempotent_witness :
  let e := StreamValue (Some [textMessage "m1" "Hi"; textMessage "m1" "Ho"]) in
  processedChunk e = None
  ∧ dispatch e (dispatch e [textMessage "m0" "a"])
    = dispatch e [textMessage "m0" "a"].
Proof.
  intros e. split; [reflexivity |].
  apply (untokened_event_idempotent e [textMessage "m0" "a"]). reflexivity.
Defined.

(** X8.  A merge leaves the store unchanged exactly when every incoming
    message with a truthy id has its id in the store already. *)
Theorem merge_noop_iff (incoming store : list Message.t) :
  (mergeOutputMessages incoming store = store
   ↔ ∀ m, m ∈ incoming → truthy_prim (Message.id m) = true →
          Message.id m ∈ Message.id <$> store)
  ∧ (mergeStreamMessages incoming store = store
     ↔ ∀ m, m ∈ incoming → truthy_prim (Message.id m) = true →
            Message.id m ∈ Message.id <$> store).
Proof.
  rewrite mergeOutputMessages_guarded, mergeStreamMessages_guarded.
  split; apply guardedMerge_noop.
Qed.

(** X9.  Once a list has been merged, every message of it that has a
    truthy id stays represented: its id is in the store after the merge and
    after any later events. *)
Theorem merged_ids_stay (e : SessionEvent) (msgs : list Message.t)
    (m : Message.t) (history : list SessionEvent) (store : list Message.t) :
  mergedList e = Some msgs → m ∈ msgs → truthy_prim (Message.id m) = true →
  Message.id m ∈ Message.id <$> run history (dispatch e store).
Proof.
  intros He Hm Hid.
  apply (elem_of_list_to_set (C:=gset prim)). fold (idSet (run history (dispatch e store))).
  rewrite idSet_run, idSet_dispatch. unfold introduces.
  rewrite (mergedList_not_processed _ _ He), He.
  apply elem_of_union_l, elem_of_union_r, elem_of_list_to_set.
  apply elem_of_truthyIds. eauto.
Qed.

Lemma merged_ids_stay_witness :
  let e := StreamValue (Some [textMessage "m1" "Hi"; textMessage "m2" "done"]) in
  let history := [tokenEvent "on_chat_model_stream" (textMessage "m3" "x")] in
  PStr "m2" ∈ Message.id <$> run history (dispatch e initialMessages).
Proof.
  intros e history.
  apply (merged_ids_stay e [textMessage "m1" "Hi"; textMessage "m2" "done"]
           (textMessage "m2" "done") history initialMessages).
  - reflexivity.
  - apply list_elem_of_In. simpl. right. left. reflexivity.
  - reflexivity.
Defined.

(** X10.  Looking an id up after a merge: an id the store held keeps its
    entry; a truthy id the store did not hold gets the first incoming
    message that carries it; a falsy id gets nothing. *)
Theorem lookup_after_merge (X : prim) (incoming store : list Message.t) :
  stored X (mergeOutputMessages incoming store)
  = match stored X store with
    | Some m => Some m
    | None => if truthy_prim X then stored X incoming else None
    end
  ∧ stored X (mergeStreamMessages incoming store)
    = match stored X store with
      | Some m => Some m
      | None => if truthy_prim X then stored X incoming else None
      end.
Proof.
  rewrite mergeOutputMessages_guarded, mergeStreamMessages_guarded.
  split; apply stored_guardedMerge_any.
Qed.

(** X11.  A token delta for one id never changes what is stored under
    another id. *)
Theorem token_delta_isolated (ev : LangChainEvent) (c : Message.t) (X : prim)
    (store : list Message.t) :
  isStreamEvent (event ev) = true → chunk (data ev) = Some c →
  Message.id c ≠ X →
  stored X (onLangChainEvent ev store) = stored X store.
Proof.
  intros Hs Hc Hne. rewrite (onLangChainEvent_token _ _ _ Hs Hc).
  destruct (_ && _); [by apply stored_appendChunk_other | done].
Qed.

Lemma token_delta_isolated_witness :
  let ev := {| event := "on_chat_model_stream";
               data := {| chunk := Some (textMessage "m2" "lo");
                          output_messages := None |} |} in
  let store := [textMessage "m1" "Hel"; textMessage "m2" "Hel"] in
  stored (PStr "m1") (onLangChainEvent ev store) = Some (textMessage "m1" "Hel").
Proof.
  intros ev store.
  rewrite (token_delta_isolated ev (textMessage "m2" "lo") (PStr "m1") store);
    [reflexivity | reflexivity | reflexivity | discriminate].
Defined.

(** X12.  The first processed delta for an id the store does not hold
    appends the chunk itself, with all its fields, as the last entry, and
    the id is found with that entry from then on. *)
Theorem first_delta_stores_chunk (ev : LangChainEvent) (c : Message.t)
    (store : list Message.t) :
  isStreamEvent (event ev) = true → chunk (data ev) = Some c →
  truthy_prim (Message.id c) = true → validContent (Message.content c) = true →
  stored (Message.id c) store = None →
  onLangChainEvent ev store = store ++ [c]
  ∧ stored (Message.id c) (onLangChainEvent ev store) = Some c.
Proof.
  intros Hs Hc Hid Hv Hnew.
  rewrite (onLangChainEvent_token _ _ _ Hs Hc), Hid, Hv. simpl. split.
  - by apply appendChunk_new.
  - by rewrite stored_appendChunk_same, Hnew.
Qed.

Lemma first_delta_stores_chunk_witness :
  let c := {| Message.id := PStr "m2";
              Message.content := VArr [];
              Message.rest := [("type", VStr "ai")] |} in
  let ev := {| event := "on_chat_model_stream";
               data := {| chunk := Some c; output_messages := None |} |} in
  onLangChainEvent ev [textMessage "m1" "Hi"] = [textMessage "m1" "Hi"; c]
  ∧ stored (PStr "m2") (onLangChainEvent ev [textMessage "m1" "Hi"]) = Some c.
Proof.
  intros c ev.
  apply (first_delta_stores_chunk ev c [textMessage "m1" "Hi"]); reflexivity.
Defined.

(** X13.  Text accumulation over a session.  If the entry under [X] holds
    the string [t] and every delta processed for [X] in a history carries a
    string, then after the history the entry holds [t] followed by those
    strings in their order of arrival, however the deltas were interleaved
    with other events. *)
Theorem text_accumulates (X : prim) (store : list Message.t) (m : Message.t)
    (t : string) (history : list SessionEvent) :
  stored X store = Some m → Message.content m = VStr t →
  Forall (λ v, isText v = true) (fragmentsFor X history) →
  Message.content <$> stored X (run history store)
  = Some (VStr (t +:+ joinTexts (fragmentsFor X history))).
Proof.
  intros HX Hm Hvs. rewrite (stored_run_fragments _ _ _ _ HX). simpl.
  by rewrite (grow_texts _ _ t).
Qed.

Lemma text_accumulates_witness :
  let history :=
    [ tokenEvent "on_chat_model_stream" (textMessage "m1" "l");
      endEvent "on_chain_end" [textMessage "m1" "Hello, all"];
      tokenEvent "on_chain_stream" (textMessage "m2" "other");
      tokenEvent "on_chat_model_stream" (textMessage "m1" "");
      StreamValue (Some [textMessage "m3" "x"]);
      tokenEvent "on_chat_model_stream" (textMessage "m1" "lo") ] in
  Message.content <$> stored (PStr "m1") (run history [textMessage "m1" "He"])
  = Some (VStr "Hello").
Proof.
  intros history.
  apply (text_accumulates (PStr "m1") [textMessage "m1" "He"]
           (textMessage "m1" "He") "He" history);
    [reflexivity | reflexivity |].
  repeat constructor.
Defined.

(** X14.  Block accumulation over a session.  If the entry under [X] holds
    the block array [l] and every delta processed for [X] in a history
    carries an array, then after the history the entry holds [l] followed
    by the blocks of those arrays in their order of arrival. *)
Theorem blocks_accumulate (X : prim) (store : list Message.t) (m : Message.t)
    (l : list value) (history : list SessionEvent) :
  stored X store = Some m → Message.content m = VArr l →
  Forall (λ v, isArray v = true) (fragmentsFor X history) →
  Message.content <$> stored X (run history store)
  = Some (VArr (l ++ joinBlocks (fragmentsFor X history))).
Proof.
  intros HX Hm Hvs. rewrite (stored_run_fragments _ _ _ _ HX). simpl.
  by rewrite (grow_blocks _ _ l).
Qed.

Lemma blocks_accumulate_witness :
  let a := VObj [("type", VStr "text"); ("text", VStr "He")] in
  let b := VObj [("type", VStr "text"); ("text", VStr "llo")] in
  let first := Message.mk (PStr "m1") (VArr [a]) [] in
  let history :=
    [ tokenEvent "on_chat_model_stream" (Message.mk (PStr "m1") (VArr []) []);
      endEvent "on_tool_end" [textMessage "m1" "Hello"];
      tokenEvent "on_chat_model_stream" (Message.mk (PStr "m1") (VArr [b]) []) ] in
  Message.content <$> stored (PStr "m1") (run history [first])
  = Some (VArr [a; b]).
Proof.
  intros a b first history.
  apply (blocks_accumulate (PStr "m1") [first] first [a] history);
    [reflexivity | reflexivity |].
  repeat constructor.
Defined.

(** X15.  The store grows by at most one entry per processed token delta
    and by at most the length of the incoming list per merge: after any
    history its length is bounded by the initial length plus the sum of
    these sizes. *)
Theorem length_bounded (history : list SessionEvent) (store : list Message.t) :
  length (run history store)
  ≤ length store + sum_list (payloadSize <$> history).
Proof. apply length_run. Qed.

(** X16.  A delta whose content is neither a string nor an array (a
    number, a boolean, an object) is dropped when its id is in the store:
    the store stays exactly as it was. *)
Theorem untyped_fragment_dropped (ev : LangChainEvent) (c m : Message.t)
    (store : list Message.t) :
  isStreamEvent (event ev) = true → chunk (data ev) = Some c →
  isText (Message.content c) = false → isArray (Message.content c) = false →
  stored (Message.id c) store = Some m →
  onLangChainEvent ev store = store.
Proof.
  intros Hs Hc Ht Ha HX. rewrite (onLangChainEvent_token _ _ _ Hs Hc).
  destruct (_ && _); [by eapply appendChunk_ignored | done].
Qed.

Lemma untyped_fragment_dropped_witness :
  let c := Message.mk (PStr "m1") (VPrim (PNum 5)) [] in
  let ev := {| event := "on_chat_model_stream";
               data := {| chunk := Some c; output_messages := None |} |} in
  onLangChainEvent ev [textMessage "m1" "He"] = [textMessage "m1" "He"]
  ∧ onLangChainEvent ev initialMessages = [c].
Proof.
  intros c ev. split; [|reflexivity].
  apply (untyped_fragment_dropped ev c (textMessage "m1" "He")
           [textMessage "m1" "He"]); reflexivity.
Defined.

(** X17.  Against the empty store a merge keeps every incoming message
    with a truthy id, in order, repeated ids included, and drops the
    others. *)
Theorem merge_into_empty (incoming : list Message.t) :
  mergeOutputMessages incoming initialMessages
  = filter (λ msg, truthy_prim (Message.id msg) = true) incoming
  ∧ mergeStreamMessages incoming initialMessages
    = filter (λ msg, truthy_prim (Message.id msg) = true) incoming.
Proof.
  rewrite mergeOutputMessages_guarded, mergeStreamMessages_guarded.
  unfold guardedMerge, initialMessages. simpl.
  split; apply list_filter_iff; intros msg; rewrite elem_of_nil; tauto.
Qed.

(** X18.  [StreamProvider] shows the form exactly when the deployment URL
    is missing from both the query state and the environment, or the
    assistant id is. *)
Theorem form_shown_iff (envApiUrl envAssistantId : option string)
    (apiUrl assistantId apiKey : string) :
  (∃ f1 f2 f3,
     StreamProvider envApiUrl envAssistantId apiUrl assistantId apiKey
     = Form f1 f2 f3)
  ↔ (apiUrl = "" ∧ string_or_empty envApiUrl = "")
    ∨ (assistantId = "" ∧ string_or_empty envAssistantId = "").
Proof.
  rewrite <- !string_not_or, <- orb_true_iff. unfold StreamProvider.
  destruct (_ || _); naive_solver.
Qed.

(** X19.  The environment fallback decides only whether the form is shown:
    the session always gets the query-state values themselves.  So with an
    empty [apiUrl] query state and a deployment URL in the environment the
    session is rendered with the empty URL. *)
Theorem fallback_not_forwarded (envApiUrl envAssistantId : option string)
    (assistantId apiKey : string) :
  string_or_empty envApiUrl ≠ "" →
  string_not (string_or assistantId envAssistantId) = false →
  StreamProvider envApiUrl envAssistantId "" assistantId apiKey
  = Session apiKey "" assistantId.
Proof.
  intros Henv Ha. unfold StreamProvider. rewrite Ha, orb_false_r.
  destruct (string_not (string_or "" envApiUrl)) eqn:Hu; [|done].
  apply string_not_or in Hu as [_ Hu]. done.
Qed.

Lemma fallback_not_forwarded_witness :
  StreamProvider (Some "http://graph.example") None "" "agent" ""
  = Session "" "" "agent".
Proof.
  apply (fallback_not_forwarded (Some "http://graph.example") None "agent" "");
    [discriminate | reflexivity].
Defined.

(** X20.  When both query states hold their defaults ([env || ""]), a
    rendered session gets the two environment values, and neither is
    empty. *)
Theorem defaults_give_environment (envApiUrl envAssistantId : option string)
    (apiKey k u a : string) :
  StreamProvider envApiUrl envAssistantId
    (string_or_empty envApiUrl) (string_or_empty envAssistantId) apiKey
  = Session k u a →
  k = apiKey
  ∧ envApiUrl = Some u ∧ u ≠ ""
  ∧ envAssistantId = Some a ∧ a ≠ "".
Proof.
  unfold StreamProvider.
  destruct (string_not (string_or (string_or_empty envApiUrl) envApiUrl))
    eqn:Hu; [done |].
  destruct (string_not (string_or (string_or_empty envAssistantId) envAssistantId))
    eqn:Ha; [done |].
  simpl. intros [= <- <- <-].
  assert (∀ env, string_not (string_or (string_or_empty env) env) = false →
            env = Some (string_or_empty env) ∧ string_or_empty env ≠ "") as Hd.
  { intros [s|]; unfold string_or; simpl; [|done].
    destruct (String.eqb_spec s "") as [->|Hs]; simpl; [done |].
    apply String.eqb_neq in Hs. rewrite Hs. simpl. rewrite Hs.
    apply String.eqb_neq in Hs. done. }
  destruct (Hd _ Hu), (Hd _ Ha). done.
Qed.

Lemma defaults_give_environment_witness :
  StreamProvider (Some "http://graph.example") (Some "agent")
    (string_or_empty (Some "http://graph.example"))
    (string_or_empty (Some "agent")) "key"
  = Session "key" "http://graph.example" "agent"
  ∧ "http://graph.example" ≠ "" ∧ "agent" ≠ "".
Proof.
  destruct (defaults_give_environment (Some "http://graph.example")
              (Some "agent") "key" "key" "http://graph.example" "agent"
              eq_refl) as (_ & _ & Hu & _ & Ha).
  split; [reflexivity |]. split; [exact Hu | exact Ha].
Defined.

(** X21.  The provider keeps a missing stored key as the empty string, and
    the health probe treats the empty string as no key: the probe made with
    the provider's initial key state is the probe made with the stored key
    itself, without the [X-Api-Key] header when nothing is stored. *)
Theorem probe_ignores_key_normalisation
    (fetch : string → option (list (string * string)) → FetchResult)
    (apiUrl : string) (storedKey : option string) :
  checkGraphStatus fetch apiUrl (Some (string_or_empty storedKey))
  = checkGraphStatus fetch apiUrl storedKey
  ∧ (probeInit (Some (string_or_empty storedKey)) = None
     ↔ string_or_empty storedKey = "").
Proof.
  unfold checkGraphStatus. rewrite probeInit_normalised. split; [done |].
  destruct storedKey as [k|]; simpl; [|done].
  destruct (String.eqb_spec k ""); naive_solver.
Qed.
